(** * Tilings of a 1 x N strip: brute-force oracle against the recurrence

    Shallow embedding of [src/python/tilings.py].  Python integers are
    unbounded, so they are [Z]; a tuple of tiles is a [list Z]; the optional
    argument [twos] of [is_valid] is an [option Z]; a call that raises is
    [None].  [lru_cache] only memoises pure functions and is therefore
    invisible in the embedding. *)

From Stdlib Require Import ZArith List Bool Lia.
From Equations Require Import Equations.
Import ListNotations.

Open Scope Z_scope.

(** ** Python built-ins used by the module *)

(** [len(t)] *)
Definition len {A : Type} (t : list A) : Z := Z.of_nat (length t).

(** [t.count(x)] on a tuple of integers *)
Fixpoint count (x : Z) (t : list Z) : Z :=
  match t with
  | [] => 0
  | y :: t' => (if y =? x then 1 else 0) + count x t'
  end.

(** [t[i]]: a negative index counts from the end, an index out of range
    raises [IndexError] ([None]). *)
Definition getitem (t : list Z) (i : Z) : option Z :=
  let j := if i <? 0 then i + len t else i in
  if (j <? 0) || (len t <=? j) then None else nth_error t (Z.to_nat j).

(** [t[i] == v], where the subscript is evaluated first. *)
Definition item_is (t : list Z) (i v : Z) : bool :=
  match getitem t i with
  | Some x => x =? v
  | None => false
  end.

(** [range(n)] *)
Definition range (n : Z) : list Z := map Z.of_nat (seq 0 (Z.to_nat n)).

(** [sum(l)] *)
Definition sum (l : list Z) : Z := fold_left Z.add l 0.

(** [itertools.product(pool, repeat=r)]: the first component varies slowest. *)
Fixpoint product (pool : list Z) (r : nat) : list (list Z) :=
  match r with
  | O => [[]]
  | S r' => flat_map (fun x => map (cons x) (product pool r')) pool
  end.

(** ** [scipy.special.comb]

    [comb] is SciPy's, not this repository's.  With the default
    [exact=False] it returns [0] unless [0 <= k <= N], and otherwise the
    value of [scipy.special.binom], which for integral arguments runs the
    multiplicative formula: [k] is replaced by [N - k] when [k > N/2], then
    the product of [i + N - k] for [i = 1 .. k] is divided by [k!].  The
    program converts the result with [int].  The model is exact integer
    arithmetic, which is what the double-precision computation gives on the
    arguments the program passes ([k <= 1] or [N <= 0]) as long as [N] is
    exactly representable; the limits of machine integers and doubles are
    outside the model. *)

Fixpoint binom_loop (fuel : nat) (i n kx num den : Z) : Z * Z :=
  match fuel with
  | O => (num, den)
  | S fuel' => binom_loop fuel' (i + 1) n kx (num * (i + n - kx)) (den * i)
  end.

Definition binom (n k : Z) : Z :=
  let kx := if (n <? 2 * k) && (0 <? n) then n - k else k in
  let '(num, den) := binom_loop (Z.to_nat kx) 1 n kx 1 1 in
  num / den.

Definition comb (N k : Z) : Z :=
  if (k <=? N) && (0 <=? N) && (0 <=? k) then binom N k else 0.

(** ** [is_valid] *)

(** The body of the [for i, tile in enumerate(tiling)] loop: [true] is
    [pass], [false] is [return False]. *)
Definition tile_ok (tiling : list Z) (i tile : Z) : bool :=
  if tile =? 1 then true
  else if tile =? 2 then (i <? len tiling - 1) && item_is tiling (i + 1) 3
  else if tile =? 3 then (0 <? i) && item_is tiling (i - 1) 2
  else false.

(** The loop itself, started at index [i] on the remaining tiles. *)
Fixpoint scan (tiling : list Z) (i : Z) (rest : list Z) : bool :=
  match rest with
  | [] => true
  | tile :: rest' =>
      if tile_ok tiling i tile then scan tiling (i + 1) rest' else false
  end.

Definition is_valid (tiling : list Z) (twos : option Z) : bool :=
  if match twos with
     | Some k => negb (count 2 tiling =? k)
     | None => false
     end
  then false
  else scan tiling 0 tiling.

(** ** The brute-force enumerator *)

(** [itertools.product] raises [ValueError] on a negative [repeat]. *)
Definition brute_all_tilings (cols : Z) : option (list (list Z)) :=
  if cols <? 0 then None
  else Some (filter (fun x => is_valid x None)
                    (product [1; 2; 3] (Z.to_nat cols))).

Definition brute_num_tilings (cols : Z) : option Z :=
  match brute_all_tilings cols with
  | Some tilings => Some (len tilings)
  | None => None
  end.

Definition brute_partial_num_tilings (twos cols : Z) : option Z :=
  match brute_all_tilings cols with
  | Some tilings =>
      Some (len (filter (fun x => is_valid x (Some twos)) tilings))
  | None => None
  end.

(** ** The recurrence counter and the aggregator *)

(** The test [twos <= 1 or cols <= 1] of [partial_num_tilings], with its
    meaning.  The recursion lowers [cols] by 2 or 3 while [cols > 1], so it
    is well founded on every pair of integers; the interpreter's recursion
    limit is outside the model. *)
Definition base_case (twos cols : Z) :
  {twos <= 1 \/ cols <= 1} + {1 < twos /\ 1 < cols}.
Proof.
  destruct ((twos <=? 1) || (cols <=? 1)) eqn:E.
  - left. apply orb_true_iff in E. destruct E as [E | E];
      apply Z.leb_le in E; auto.
  - right. apply orb_false_iff in E. destruct E as [E1 E2].
    apply Z.leb_gt in E1. apply Z.leb_gt in E2. auto.
Defined.

Equations? partial_num_tilings (twos cols : Z) : Z
  by wf (Z.to_nat cols) lt :=
  partial_num_tilings twos cols with base_case twos cols := {
    | left _ => comb (cols - 1) twos
    | right _ =>
        partial_num_tilings (twos - 1) (cols - 2) +
        partial_num_tilings twos (cols - 2) +
        partial_num_tilings (twos - 1) (cols - 3) }.
Proof. all: lia. Qed.

Definition num_tilings (cols : Z) : Z :=
  sum (map (fun twos => partial_num_tilings twos cols)
           (range (cols / 2 + 1))).


(** ** A reading of the specification's binomial coefficient

    Follows the specification's words, for comparison with [comb]: Pascal's
    rule on the naturals, and [0] when [k > n], [k < 0] or [n < 0]. *)



(** ** A reading of the specification's validity of a tiling

    Follows the specification's words, for comparison with [is_valid]: the
    markers come from the alphabet, every head is immediately followed by a
    tail, every tail is immediately preceded by a head, and the number of
    heads is the expected one when one is given. *)

Definition tiles_in_alphabet (t : list Z) : Prop :=
  forall x, In x t -> x = 1 \/ x = 2 \/ x = 3.

Definition heads_followed (t : list Z) : Prop :=
  forall i, nth_error t i = Some 2 -> nth_error t (S i) = Some 3.

Definition tails_preceded (t : list Z) : Prop :=
  forall i, nth_error t i = Some 3 ->
            exists j, i = S j /\ nth_error t j = Some 2.

Definition count_matches (t : list Z) (twos : option Z) : Prop :=
  forall k, twos = Some k -> count 2 t = k.

Definition valid_spec (t : list Z) (twos : option Z) : Prop :=
  tiles_in_alphabet t /\ heads_followed t /\ tails_preceded t /\
  count_matches t twos.

(** ** Auxiliary notions for the proofs *)

(** What the loop of [is_valid] asks of position [j] holding [x]. *)
Definition position_ok (t : list Z) (j : nat) (x : Z) : Prop :=
  x = 1 \/
  (x = 2 /\ nth_error t (S j) = Some 3) \/
  (x = 3 /\ exists j', j = S j' /\ nth_error t j' = Some 2).

Definition positions_ok (t : list Z) : Prop :=
  forall j x, nth_error t j = Some x -> position_ok t j x.

(** A tiling read from the left: a unit, or a head with its tail. *)
Fixpoint well_paired (t : list Z) : bool :=
  match t with
  | [] => true
  | x :: r =>
      if x =? 1 then well_paired r
      else if x =? 2 then
        match r with
        | y :: r' => (y =? 3) && well_paired r'
        | [] => false
        end
      else false
  end.

(** The tilings of [n] columns with exactly [k] heads, counted on the
    candidates of the enumerator. *)
Definition paired_with (k : Z) (t : list Z) : bool :=
  (count 2 t =? k) && well_paired t.

Definition brute_count (k : Z) (n : nat) : Z :=
  len (filter (paired_with k) (product [1; 2; 3] n)).

(** ** [is_valid] with the subscripts that can raise

    The same loop, where a subscript out of range is an [IndexError]
    ([None]) instead of a failed comparison.  [and] evaluates its guard
    first and the subscript only when the guard holds. *)

Definition item_is_checked (t : list Z) (i v : Z) : option bool :=
  match getitem t i with
  | Some x => Some (x =? v)
  | None => None
  end.

Definition tile_ok_checked (tiling : list Z) (i tile : Z) : option bool :=
  if tile =? 1 then Some true
  else if tile =? 2 then
    if i <? len tiling - 1 then item_is_checked tiling (i + 1) 3
    else Some false
  else if tile =? 3 then
    if 0 <? i then item_is_checked tiling (i - 1) 2 else Some false
  else Some false.

Fixpoint scan_checked (tiling : list Z) (i : Z) (rest : list Z)
  : option bool :=
  match rest with
  | [] => Some true
  | tile :: rest' =>
      match tile_ok_checked tiling i tile with
      | Some true => scan_checked tiling (i + 1) rest'
      | Some false => Some false
      | None => None
      end
  end.

Definition is_valid_checked (tiling : list Z) (twos : option Z)
  : option bool :=
  if match twos with
     | Some k => negb (count 2 tiling =? k)
     | None => false
     end
  then Some false
  else scan_checked tiling 0 tiling.

(** * The Luhn module

    Shallow embedding of [src/python/luhn.py].  The functions take a number
    or a string.  Strings are modelled over the alphabet the module itself
    produces, a minus sign and the ten decimal digits, so that [int] either
    reads a string as [-?[0-9]+] or raises [ValueError]; other characters
    are outside the model, and so is the interpreter's limit on the number
    of digits converted between [int] and [str].  A generator is the list it
    yields when run to exhaustion, as [sum] and [enumerate] run it; the
    [while] loop of [digits_rtl] takes fuel, and running out of it is
    [OutOfFuel]. *)

Module Luhn.

Inductive digit : Set :=
| D0 | D1 | D2 | D3 | D4 | D5 | D6 | D7 | D8 | D9.

Inductive char : Set :=
| Minus
| Digit (d : digit).

(** A value passed as [num]. *)
Inductive value : Type :=
| Int (z : Z)
| Str (s : list char).

Inductive exn : Set := ValueError | IndexError.

Inductive result (A : Type) : Type :=
| Ok (a : A)
| Raise (e : exn)
| OutOfFuel.
Arguments Ok {A} a.
Arguments Raise {A} e.
Arguments OutOfFuel {A}.

Definition bind {A B : Type} (c : result A) (k : A -> result B) : result B :=
  match c with
  | Ok a => k a
  | Raise e => Raise e
  | OutOfFuel => OutOfFuel
  end.

Notation "x <- c ;; k" := (bind c (fun x => k))
  (at level 61, c at next level, right associativity).

(** ** Python built-ins *)

Definition digit_val (d : digit) : Z :=
  match d with
  | D0 => 0 | D1 => 1 | D2 => 2 | D3 => 3 | D4 => 4
  | D5 => 5 | D6 => 6 | D7 => 7 | D8 => 8 | D9 => 9
  end.

(** The digit of a number between 0 and 9. *)
Definition digit_of (z : Z) : digit :=
  match z with
  | 1 => D1 | 2 => D2 | 3 => D3 | 4 => D4
  | 5 => D5 | 6 => D6 | 7 => D7 | 8 => D8 | 9 => D9
  | _ => D0
  end.

(** The decimal digits of a positive number, least significant first; a
    number below [2 ^ fuel] has at most [fuel] of them. *)
Fixpoint dec_digits (fuel : nat) (n : Z) : list digit :=
  match fuel with
  | O => []
  | S fuel' =>
      if n =? 0 then []
      else digit_of (n mod 10) :: dec_digits fuel' (n / 10)
  end.

Definition dec_nat (n : Z) : list char :=
  if n =? 0 then [Digit D0]
  else map Digit (rev (dec_digits (S (Z.to_nat (Z.log2 n))) n)).

(** [str(z)] and [repr(z)] of an integer. *)
Definition dec (z : Z) : list char :=
  if z <? 0 then Minus :: dec_nat (- z) else dec_nat z.

(** [str(num)]; [repr(num)] is the same on an integer. *)
Definition str (num : value) : list char :=
  match num with
  | Int z => dec z
  | Str s => s
  end.

Fixpoint parse_digits (acc : Z) (s : list char) : option Z :=
  match s with
  | [] => Some acc
  | Digit d :: s' => parse_digits (10 * acc + digit_val d) s'
  | Minus :: _ => None
  end.

(** [int(s)] on a string: an optional sign and at least one digit. *)
Definition int_of_str (s : list char) : result Z :=
  match s with
  | [] | [Minus] => Raise ValueError
  | Minus :: s' =>
      match parse_digits 0 s' with
      | Some n => Ok (- n)
      | None => Raise ValueError
      end
  | _ =>
      match parse_digits 0 s with
      | Some n => Ok n
      | None => Raise ValueError
      end
  end.

(** [int(num)] *)
Definition int (num : value) : result Z :=
  match num with
  | Int z => Ok z
  | Str s => int_of_str s
  end.

(** [ord(c) - ord('0')] *)
Definition ord_minus_zero (c : char) : Z :=
  match c with
  | Minus => 45 - 48
  | Digit d => digit_val d
  end.

(** [s[-1]], a string of one character *)
Definition last_char (s : list char) : result char :=
  match rev s with
  | c :: _ => Ok c
  | [] => Raise IndexError
  end.

(** [enumerate(l, start)] *)
Fixpoint enumerate_from {A : Type} (start : Z) (l : list A) : list (Z * A) :=
  match l with
  | [] => []
  | x :: l' => (start, x) :: enumerate_from (start + 1) l'
  end.

Definition enumerate {A : Type} (l : list A) : list (Z * A) :=
  enumerate_from 0 l.

(** ** The functions of the module *)

Definition is_even (num : Z) : bool := num mod 2 =? 0.

Definition luhnize (digit index : Z) : Z :=
  if is_even index then digit
  else if digit <? 5 then digit * 2
  else digit * 2 - 9.

(** The loop [while val: yield val % 10; val //= 10]. *)
Fixpoint digits_rtl_loop (fuel : nat) (val : Z) : result (list Z) :=
  match fuel with
  | O => OutOfFuel
  | S fuel' =>
      if val =? 0 then Ok []
      else rest <- digits_rtl_loop fuel' (val / 10) ;;
           Ok (val mod 10 :: rest)
  end.

Definition digits_rtl (fuel : nat) (num : value) : result (list Z) :=
  val <- int num ;;
  digits_rtl_loop fuel val.

(** [map(f, s)] for an [f] that can raise, run to exhaustion. *)
Fixpoint map_result {A B : Type} (f : A -> result B) (l : list A)
  : result (list B) :=
  match l with
  | [] => Ok []
  | x :: l' =>
      y <- f x ;;
      ys <- map_result f l' ;;
      Ok (y :: ys)
  end.

(** [map(int, conv(num)[::-1])]: [int] is applied to one character at a
    time. *)
Definition digits_rtl_2 (num : value) : result (list Z) :=
  map_result (fun c => int (Str [c])) (rev (str num)).

Definition digits_rtl_3 (num : value) : list Z :=
  map ord_minus_zero (rev (str num)).

(** [sum(luhnize(digit, ind) for ind, digit in enumerate(digits))] *)
Definition luhn_total (digits : list Z) : Z :=
  sum (map (fun p => luhnize (snd p) (fst p)) (enumerate digits)).

Definition luhn_sum (fuel : nat) (num : value) : result Z :=
  digits <- digits_rtl fuel num ;;
  Ok (luhn_total digits).

Definition luhn_sum2 (num : value) : result Z :=
  digits <- digits_rtl_2 num ;;
  Ok (luhn_total digits).

Definition luhn_sum3 (num : value) : Z :=
  luhn_total (digits_rtl_3 num).

Definition luhn_checkdigit (fuel : nat) (num : value) : result Z :=
  s <- luhn_sum fuel (Str (str num ++ [Digit D0])) ;;
  sum_digit <- last_char (dec s) ;;
  match sum_digit with
  | Digit D0 => Ok 0
  | _ =>
      d <- int (Str [sum_digit]) ;;
      Ok (10 - d)
  end.

Definition luhn (fuel : nat) (num : value) : result bool :=
  let str_num := str num in
  if len str_num =? 0 then Ok true
  else s <- luhn_sum fuel (Str str_num) ;;
       Ok (s mod 10 =? 0).

Definition luhn2 (fuel : nat) (num : value) : result bool :=
  let str_num := str num in
  if len str_num =? 0 then Ok true
  else c <- luhn_checkdigit fuel (Str (removelast str_num)) ;;
       l <- last_char str_num ;;
       d <- int (Str [l]) ;;
       Ok (c =? d).

(** ** The unit tests of the module

    A test is the conjunction of its assertions: [true] when every one
    holds and no call raises.  A string literal is written by its digits. *)

Definition lit (ds : list Z) : value := Str (map (fun d => Digit (digit_of d)) ds).

Definition LUHN_FUNCS : list (nat -> value -> result bool) := [luhn; luhn2].

Definition LUHN_SUM_FUNCS : list (nat -> value -> result Z) :=
  [luhn_sum; fun _ num => luhn_sum2 num; fun _ num => Ok (luhn_sum3 num)].

Definition INVALID_NUMBERS : list value :=
  [Int 4; Int 27; lit [0; 0; 0; 2]; Int 79927398710; Int 79927398711;
   Int 79927398712; Int 79927398714; Int 79927398715; Int 79927398716;
   Int 79927398717; Int 79927398718; Int 79927398719].

Definition VALID_NUMBERS : list value :=
  [Int 0; Int 18; Int 356; lit [0; 0; 0; 2; 6]; Int 79927398713;
   Int 4716482418701311; Int 4304172248660336; Int 4929302920514886613;
   Int 5542085555437198; Int 5146437401032089; Int 2720995452994060;
   Int 378922420478595; Int 370310762628969; Int 372737477069311;
   Int 6011978074253841; Int 6011024634906865; Int 6011428102789841912;
   Int 3533725857975546; Int 3537092484233617; Int 3538104137775383269;
   Int 5538906569551003; Int 5565692653692541; Int 5501779495991830;
   Int 30533265245815; Int 30152552791603; Int 30129245964037;
   Int 36651591968217; Int 36361904367327; Int 36950048438232;
   Int 6759071057311566; Int 5038425671185373; Int 5893761000576054;
   Int 4508613163305179; Int 4026630816074856; Int 4175007002891287;
   Int 6395495239224670; Int 6390517435452758; Int 6381693101945929].

(** [assertTrue(x)], [assertFalse(x)] and [assertEqual(x, expected)] on the
    result of a call. *)
Definition assert_bool (expected : bool) (r : result bool) : bool :=
  match r with
  | Ok b => Bool.eqb b expected
  | _ => false
  end.

Definition assert_equal (r : result Z) (expected : Z) : bool :=
  match r with
  | Ok z => z =? expected
  | _ => false
  end.

Definition test_is_even : bool :=
  forallb is_even [-4; 0; 2; 2 ^ 64; 1432523045198].

(** [maxsize] stands for [sys.maxsize]. *)
Definition test_is_not_even (maxsize : Z) : bool :=
  forallb (fun num => negb (is_even num)) [-3; 1; 20398457; maxsize].

Definition test_invalid_luhn (fuel : nat) : bool :=
  forallb (fun func =>
             forallb (fun num => assert_bool false (func fuel num))
                     INVALID_NUMBERS)
          LUHN_FUNCS.

Definition test_valid_luhn (fuel : nat) : bool :=
  forallb (fun func =>
             forallb (fun num => assert_bool true (func fuel num))
                     VALID_NUMBERS)
          LUHN_FUNCS.

Definition test_luhnize : bool :=
  forallb (fun c => luhnize (fst (fst c)) (snd (fst c)) =? snd c)
          [((0, 1), 0); ((0, 0), 0); ((1, 5), 2); ((1, 10), 1); ((4, 3), 8);
           ((4, 2), 4); ((5, 9), 1); ((5, 4), 5); ((8, 1), 7); ((8, 8), 8)].

(** The loop variable [func] only names the message: every pass calls
    [luhn_sum]. *)
Definition test_luhn_sum (fuel : nat) : bool :=
  forallb (fun func : nat -> value -> result Z =>
             forallb (fun c => assert_equal (luhn_sum fuel (fst c)) (snd c))
                     [(Int 1, 1); (Int 11, 3); (Int 45, 13); (Int 0, 0);
                      (Int 5555, 12); (Int 1234567890, 43);
                      (Int 123456789, 47);
                      (lit [0; 0; 0; 0; 0; 0; 0; 0; 0; 2], 2);
                      (Int 79927398710, 67)])
          LUHN_SUM_FUNCS.

Definition test_luhn_checkdigit (fuel : nat) : bool :=
  forallb (fun num =>
             match l <- last_char (str num) ;; int (Str [l]) with
             | Ok output =>
                 assert_equal
                   (luhn_checkdigit fuel (Str (removelast (str num)))) output
             | _ => false
             end)
          VALID_NUMBERS.

(** ** Auxiliary notions for the proofs *)

(** Fuel that lets the loop of [digits_rtl] finish on [val >= 0]. *)
Definition fuel_for (val : Z) : nat := Z.to_nat (Z.log2 val) + 2.

(** The number a list of digits denotes, least significant first. *)
Fixpoint value_of (digits : list Z) : Z :=
  match digits with
  | [] => 0
  | d :: digits' => d + 10 * value_of digits'
  end.

(** The digits [digits_rtl] yields on [val >= 0]. *)
Definition digits (val : Z) : list Z :=
  match digits_rtl_loop (fuel_for val) val with
  | Ok ds => ds
  | _ => []
  end.

Definition all_digits (s : list char) : Prop :=
  Forall (fun c => c <> Minus) s.

Definition is_digit (d : Z) : Prop := 0 <= d <= 9.

(** The sum of [luhn_total] with the indices counted from [start]. *)
Definition luhn_from (start : Z) (ds : list Z) : Z :=
  sum (map (fun p => luhnize (snd p) (fst p)) (enumerate_from start ds)).

(** The digits of a string, least significant first: what [digits_rtl_3]
    reads. *)
Definition rtl (s : list char) : list Z := map ord_minus_zero (rev s).

(** Fuel that lets [digits_rtl] finish on a string of digits: a decimal
    digit takes less than four bits. *)
Definition fuel_for_str (s : list char) : nat := 4 * length s + 2.


End Luhn.

(** * Properties *)

(** ** The defining equations of the recurrence counter *)

Lemma partial_num_tilings_base (twos cols : Z) :
  twos <= 1 \/ cols <= 1 ->
  partial_num_tilings twos cols = comb (cols - 1) twos.
Proof.
  intros H. simp partial_num_tilings.
  destruct (base_case twos cols) as [Hb | [? ?]]; simpl; [reflexivity | lia].
Qed.

Lemma partial_num_tilings_step (twos cols : Z) :
  1 < twos -> 1 < cols ->
  partial_num_tilings twos cols =
    partial_num_tilings (twos - 1) (cols - 2) +
    partial_num_tilings twos (cols - 2) +
    partial_num_tilings (twos - 1) (cols - 3).
Proof.
  intros Ht Hc. rewrite partial_num_tilings_equation_1.
  destruct (base_case twos cols) as [[? | ?] | Hr]; simpl; [lia | lia | reflexivity].
Qed.

(** ** The closed form at the base case *)


Lemma comb_0 (N : Z) : 0 <= N -> comb N 0 = 1.
Proof.
  intros H. unfold comb.
  replace (0 <=? N) with true by (symmetry; apply Z.leb_le; lia).
  simpl. unfold binom.
  replace (N <? 2 * 0) with false by (symmetry; apply Z.ltb_ge; lia).
  reflexivity.
Qed.








(** C4. In the recursive case, [twos > 1] and [cols > 1], the result is
    exactly the sum of the three sub-counts at (twos-1, cols-2),
    (twos, cols-2) and (twos-1, cols-3). *)
Theorem partial_num_tilings_recursive_case (twos cols : Z) :
  twos > 1 -> cols > 1 ->
  partial_num_tilings twos cols =
    partial_num_tilings (twos - 1) (cols - 2) +
    partial_num_tilings twos (cols - 2) +
    partial_num_tilings (twos - 1) (cols - 3).
Proof.
  intros Ht Hc. apply partial_num_tilings_step; lia.
Qed.

Lemma partial_num_tilings_recursive_case_witness :
  partial_num_tilings 2 5 =
    partial_num_tilings (2 - 1) (5 - 2) +
    partial_num_tilings 2 (5 - 2) +
    partial_num_tilings (2 - 1) (5 - 3).
Proof.
  apply (partial_num_tilings_recursive_case 2 5); lia.
Defined.

(** ** Zero outside the feasible region *)






(** ** Values of the aggregator *)

(** C7 as the code has it. The totals for 2, 3 and 4 columns are 2, 3 and
    5, and the total for 14 columns is 610. *)
Theorem num_tilings_known_values :
  num_tilings 2 = 2 /\ num_tilings 3 = 3 /\ num_tilings 4 = 5 /\
  num_tilings 14 = 610.
Proof.
  repeat split; vm_compute; reflexivity.
Qed.

(** C7 as stated fails: the total for 14 columns is not 1220. *)
Lemma num_tilings_14_is_not_1220 :
  ~ (num_tilings 2 = 2 /\ num_tilings 3 = 3 /\ num_tilings 4 = 5 /\
     num_tilings 14 = 1220).
Proof.
  intros [_ [_ [_ H]]]. vm_compute in H. discriminate H.
Qed.

(** C3 at the empty strip. With no column the recurrence counter and the
    aggregator return 0, while the enumerator finds the one empty tiling. *)
Theorem num_tilings_empty_strip :
  partial_num_tilings 0 0 = 0 /\ num_tilings 0 = 0 /\
  brute_all_tilings 0 = Some [[]] /\ brute_num_tilings 0 = Some 1.
Proof.
  repeat split; vm_compute; reflexivity.
Qed.

(** The part of C3 that the code meets: one tiling of a single column, and
    exactly one tiling without dominoes of any strip with a column. *)
Lemma num_tilings_boundary_from_1 :
  num_tilings 1 = 1 /\ forall cols, 1 <= cols -> partial_num_tilings 0 cols = 1.
Proof.
  split; [vm_compute; reflexivity |].
  intros cols H. rewrite partial_num_tilings_base by lia.
  apply comb_0. lia.
Qed.

(** ** The validator *)

Section Validator.

Variable tiling : list Z.

Lemma getitem_in_range (j : nat) :
  (j < length tiling)%nat -> getitem tiling (Z.of_nat j) = nth_error tiling j.
Proof.
  intros H. unfold getitem, len.
  assert (E0 : (Z.of_nat j <? 0) = false) by (apply Z.ltb_ge; lia).
  assert (E1 : (Z.of_nat (length tiling) <=? Z.of_nat j) = false)
    by (apply Z.leb_gt; lia).
  cbv zeta. rewrite E0. cbv iota. rewrite E0, E1.
  cbn [orb]. rewrite Nat2Z.id. reflexivity.
Qed.

(** The guard [i < len(tiling) - 1] keeps [tiling[i+1]] in range. *)
Lemma head_check (j : nat) :
  (Z.of_nat j <? len tiling - 1) && item_is tiling (Z.of_nat j + 1) 3 = true
  <-> nth_error tiling (S j) = Some 3.
Proof.
  replace (Z.of_nat j + 1) with (Z.of_nat (S j)) by lia.
  unfold item_is, len. split.
  - intros H. apply andb_true_iff in H. destruct H as [Hlt Hit].
    apply Z.ltb_lt in Hlt.
    rewrite getitem_in_range in Hit by lia.
    destruct (nth_error tiling (S j)) as [y |]; [| discriminate].
    apply Z.eqb_eq in Hit. congruence.
  - intros H.
    assert (Hlen : (S j < length tiling)%nat)
      by (apply nth_error_Some; congruence).
    apply andb_true_iff. split; [apply Z.ltb_lt; lia |].
    rewrite getitem_in_range, H by lia. reflexivity.
Qed.

(** The guard [i > 0] keeps [tiling[i-1]] from wrapping to the end. *)
Lemma tail_check (j : nat) :
  (j < length tiling)%nat ->
  (0 <? Z.of_nat j) && item_is tiling (Z.of_nat j - 1) 2 = true
  <-> exists j', j = S j' /\ nth_error tiling j' = Some 2.
Proof.
  intros Hj. unfold item_is. split.
  - intros H. apply andb_true_iff in H. destruct H as [Hpos Hit].
    apply Z.ltb_lt in Hpos. destruct j as [| j']; [lia |].
    exists j'. split; [reflexivity |].
    replace (Z.of_nat (S j') - 1) with (Z.of_nat j') in Hit by lia.
    rewrite getitem_in_range in Hit by lia.
    destruct (nth_error tiling j') as [y |]; [| discriminate].
    apply Z.eqb_eq in Hit. congruence.
  - intros [j' [-> H]]. apply andb_true_iff. split; [apply Z.ltb_lt; lia |].
    replace (Z.of_nat (S j') - 1) with (Z.of_nat j') by lia.
    rewrite getitem_in_range, H by lia. reflexivity.
Qed.

Lemma tile_ok_iff (j : nat) (x : Z) :
  nth_error tiling j = Some x ->
  tile_ok tiling (Z.of_nat j) x = true <-> position_ok tiling j x.
Proof.
  intros Hx.
  assert (Hj : (j < length tiling)%nat) by (apply nth_error_Some; congruence).
  unfold tile_ok, position_ok.
  destruct (x =? 1) eqn:E1.
  { apply Z.eqb_eq in E1. tauto. }
  apply Z.eqb_neq in E1.
  destruct (x =? 2) eqn:E2.
  { apply Z.eqb_eq in E2. rewrite head_check. split.
    - intros H. right. left. auto.
    - intros [H | [[_ H] | [H _]]]; [lia | exact H | lia]. }
  apply Z.eqb_neq in E2.
  destruct (x =? 3) eqn:E3.
  { apply Z.eqb_eq in E3. rewrite (tail_check j Hj). split.
    - intros H. right. right. auto.
    - intros [H | [[H _] | [_ H]]]; [lia | lia | exact H]. }
  apply Z.eqb_neq in E3. split; [discriminate |].
  intros [H | [[H _] | [H _]]]; lia.
Qed.

Lemma scan_iff (rest : list Z) : forall i : Z,
  scan tiling i rest = true <->
  forall j x, nth_error rest j = Some x ->
              tile_ok tiling (i + Z.of_nat j) x = true.
Proof.
  induction rest as [| tile rest' IH]; intros i; cbn [scan].
  - split; [| reflexivity]. intros _ [| j] x H; discriminate.
  - split.
    + intros H. destruct (tile_ok tiling i tile) eqn:E; [| discriminate].
      intros [| j] x Hx; cbn in Hx.
      * injection Hx as <-. rewrite Z.add_0_r. exact E.
      * replace (i + Z.of_nat (S j)) with (i + 1 + Z.of_nat j) by lia.
        apply (proj1 (IH (i + 1)) H). exact Hx.
    + intros H. assert (E := H 0%nat tile eq_refl).
      change (Z.of_nat 0) with 0 in E. rewrite Z.add_0_r in E.
      rewrite E. apply IH. intros j x Hx.
      replace (i + 1 + Z.of_nat j) with (i + Z.of_nat (S j)) by lia.
      apply H. exact Hx.
Qed.

Lemma is_valid_plain_iff : is_valid tiling None = true <-> positions_ok tiling.
Proof.
  unfold is_valid, positions_ok. rewrite scan_iff. cbn [Z.add].
  split; intros H j x Hx.
  - apply tile_ok_iff; auto.
  - apply tile_ok_iff; auto.
Qed.

Lemma is_valid_counted (k : Z) :
  is_valid tiling (Some k) = (count 2 tiling =? k) && is_valid tiling None.
Proof.
  unfold is_valid. destruct (count 2 tiling =? k); reflexivity.
Qed.

Lemma positions_ok_iff :
  positions_ok tiling <->
  tiles_in_alphabet tiling /\ heads_followed tiling /\ tails_preceded tiling.
Proof.
  unfold positions_ok, position_ok, tiles_in_alphabet, heads_followed,
    tails_preceded.
  split.
  - intros H. repeat split.
    + intros x Hin. apply In_nth_error in Hin. destruct Hin as [j Hj].
      destruct (H j x Hj) as [? | [[? _] | [? _]]]; auto.
    + intros i Hi.
      destruct (H i 2 Hi) as [? | [[_ ?] | [? _]]]; [lia | assumption | lia].
    + intros i Hi.
      destruct (H i 3 Hi) as [? | [[? _] | [_ ?]]]; [lia | lia | assumption].
  - intros [Ha [Hh Ht]] j x Hx.
    destruct (Ha x (nth_error_In _ _ Hx)) as [-> | [-> | ->]]; auto.
Qed.

End Validator.

(** C8. [is_valid] answers true exactly when every tile is 1, 2 or 3, every
    2 is immediately followed by a 3, every 3 is immediately preceded by a
    2 and, when [twos] is given, the tiling holds exactly [twos] 2s.  In
    particular the empty tiling is valid, and a tile outside the alphabet
    or a different number of 2s makes the answer false. *)
Theorem is_valid_iff_valid_spec (t : list Z) (twos : option Z) :
  (is_valid t twos = true <-> valid_spec t twos) /\
  is_valid [] None = true /\
  ((exists x, In x t /\ x <> 1 /\ x <> 2 /\ x <> 3) ->
   is_valid t twos = false) /\
  (forall k, twos = Some k -> count 2 t <> k -> is_valid t twos = false).
Proof.
  assert (Hiff : is_valid t twos = true <-> valid_spec t twos).
  { unfold valid_spec, count_matches. destruct twos as [k |].
    - rewrite is_valid_counted, andb_true_iff, Z.eqb_eq,
        is_valid_plain_iff, positions_ok_iff.
      split.
      + intros [Hc [Ha [Hh Ht]]]. repeat split; auto.
        intros k' Hk'. injection Hk' as <-. exact Hc.
      + intros [Ha [Hh [Ht Hc]]]. repeat split; auto.
    - rewrite is_valid_plain_iff, positions_ok_iff.
      split.
      + intros [Ha [Hh Ht]]. repeat split; auto. discriminate.
      + intros [Ha [Hh [Ht _]]]. auto. }
  split; [exact Hiff |]. split; [reflexivity |]. split.
  - intros [x [Hin [H1 [H2 H3]]]].
    apply not_true_is_false. intros Hv. apply Hiff in Hv.
    destruct Hv as [Ha _]. destruct (Ha x Hin) as [? | [? | ?]]; lia.
  - intros k Hk Hne. apply not_true_is_false. intros Hv. apply Hiff in Hv.
    destruct Hv as [_ [_ [_ Hc]]]. apply Hne, Hc, Hk.
Qed.

(** ** Valid tilings read from the left *)

Lemma positions_ok_unit (r : list Z) :
  positions_ok (1 :: r) <-> positions_ok r.
Proof.
  unfold positions_ok, position_ok. split.
  - intros H j x Hx.
    destruct (H (S j) x Hx) as [? | [[? Hn] | [? [j' [Hj' Hn]]]]]; auto.
    right. right. split; [assumption |].
    injection Hj' as <-. destruct j as [| j0]; [discriminate |].
    exists j0. auto.
  - intros H [| j] x Hx; cbn in Hx.
    + left. congruence.
    + destruct (H j x Hx) as [? | [[? Hn] | [? [j' [Hj' Hn]]]]]; auto.
      right. right. split; [assumption |]. exists j. subst j. auto.
Qed.

Lemma positions_ok_pair (r : list Z) :
  positions_ok (2 :: 3 :: r) <-> positions_ok r.
Proof.
  unfold positions_ok, position_ok. split.
  - intros H j x Hx.
    destruct (H (S (S j)) x Hx) as [? | [[? Hn] | [? [j' [Hj' Hn]]]]]; auto.
    right. right. split; [assumption |].
    injection Hj' as <-. destruct j as [| j0]; [discriminate |].
    exists j0. auto.
  - intros H [| [| j]] x Hx; cbn in Hx.
    + right. left. split; [congruence | reflexivity].
    + right. right. split; [congruence |]. exists 0%nat. auto.
    + destruct (H j x Hx) as [? | [[? Hn] | [? [j' [Hj' Hn]]]]]; auto.
      right. right. split; [assumption |]. exists (S j). subst j. auto.
Qed.

Lemma positions_ok_first (x : Z) (r : list Z) :
  positions_ok (x :: r) -> x = 1 \/ (x = 2 /\ exists r', r = 3 :: r').
Proof.
  intros H.
  destruct (H 0%nat x eq_refl) as [? | [[? Hn] | [? [j' [Hj' _]]]]];
    [auto | | discriminate].
  right. split; [assumption |]. destruct r as [| y r']; [discriminate |].
  exists r'. cbn in Hn. congruence.
Qed.

Lemma well_paired_iff_bounded (n : nat) : forall t,
  (length t <= n)%nat -> well_paired t = true <-> positions_ok t.
Proof.
  induction n as [| n IH]; intros t Hlen.
  - destruct t; [| cbn in Hlen; lia].
    split; [| reflexivity]. intros _ [| j] x Hx; discriminate.
  - destruct t as [| x r].
    { split; [| reflexivity]. intros _ [| j] x Hx; discriminate. }
    cbn in Hlen. split.
    + cbn [well_paired]. destruct (x =? 1) eqn:E1.
      { apply Z.eqb_eq in E1. subst x. intros H.
        apply positions_ok_unit, IH; [lia | exact H]. }
      destruct (x =? 2) eqn:E2; [| discriminate].
      apply Z.eqb_eq in E2. subst x.
      destruct r as [| y r']; [discriminate |].
      intros H. apply andb_true_iff in H. destruct H as [Hy H].
      apply Z.eqb_eq in Hy. subst y.
      apply positions_ok_pair, IH; [cbn in Hlen; lia | exact H].
    + intros H. destruct (positions_ok_first _ _ H) as [-> | [-> [r' ->]]].
      * cbn. apply IH; [lia |]. apply positions_ok_unit. exact H.
      * cbn. apply IH; [cbn in Hlen; lia |]. apply positions_ok_pair. exact H.
Qed.

Lemma is_valid_well_paired (t : list Z) : is_valid t None = well_paired t.
Proof.
  apply eq_true_iff_eq. rewrite is_valid_plain_iff.
  symmetry. apply (well_paired_iff_bounded (length t)). lia.
Qed.

(** Induction along the reading of a valid tiling. *)
Lemma well_paired_induction (P : list Z -> Prop) :
  P [] ->
  (forall r, well_paired r = true -> P r -> P (1 :: r)) ->
  (forall r, well_paired r = true -> P r -> P (2 :: 3 :: r)) ->
  forall t, well_paired t = true -> P t.
Proof.
  intros Hnil Hunit Hpair t.
  assert (Hb : forall n t, (length t <= n)%nat -> well_paired t = true -> P t).
  { clear t. induction n as [| n IH]; intros t Hlen Hw.
    - destruct t; [exact Hnil | cbn in Hlen; lia].
    - destruct t as [| x r]; [exact Hnil |].
      cbn in Hlen. cbn [well_paired] in Hw.
      destruct (x =? 1) eqn:E1.
      { apply Z.eqb_eq in E1. subst x. apply Hunit; [exact Hw |].
        apply IH; [lia | exact Hw]. }
      destruct (x =? 2) eqn:E2; [| discriminate].
      apply Z.eqb_eq in E2. subst x.
      destruct r as [| y r']; [discriminate |].
      apply andb_true_iff in Hw. destruct Hw as [Hy Hw].
      apply Z.eqb_eq in Hy. subst y.
      apply Hpair; [exact Hw |]. apply IH; [cbn in Hlen; lia | exact Hw]. }
  apply (Hb (length t)). lia.
Qed.

Lemma well_paired_counts (t : list Z) :
  well_paired t = true ->
  count 2 t = count 3 t /\ 0 <= count 2 t /\ 2 * count 2 t <= len t.
Proof.
  revert t. apply well_paired_induction.
  - cbn. lia.
  - intros r _ IH. unfold len in *. cbn [count length]. cbn [Z.eqb Pos.eqb].
    lia.
  - intros r _ IH. unfold len in *. cbn [count length]. cbn [Z.eqb Pos.eqb].
    lia.
Qed.

(** C10. A tiling accepted by [is_valid] without an expected count holds
    as many 2s as 3s. *)
Theorem is_valid_heads_equal_tails (t : list Z) :
  is_valid t None = true -> count 2 t = count 3 t.
Proof.
  rewrite is_valid_well_paired. intros H. apply well_paired_counts, H.
Qed.

Lemma is_valid_heads_equal_tails_witness :
  count 2 [2; 3; 1; 2; 3] = count 3 [2; 3; 1; 2; 3].
Proof.
  apply (is_valid_heads_equal_tails [2; 3; 1; 2; 3]). reflexivity.
Defined.

(** ** Counting the candidates of the enumerator *)

Section Filters.

Context {A B : Type}.

Lemma len_app (l1 l2 : list A) : len (l1 ++ l2) = len l1 + len l2.
Proof. unfold len. rewrite length_app. lia. Qed.

Lemma filter_map_len (f : B -> bool) (g : A -> B) (l : list A) :
  len (filter f (map g l)) = len (filter (fun x => f (g x)) l).
Proof.
  unfold len. induction l as [| a l IH]; [reflexivity |].
  cbn [map filter]. destruct (f (g a)); cbn [length]; lia.
Qed.

Lemma filter_twice (f g : A -> bool) (l : list A) :
  filter f (filter g l) = filter (fun x => g x && f x) l.
Proof.
  induction l as [| a l IH]; [reflexivity |].
  cbn [filter]. destruct (g a); cbn [filter andb]; rewrite IH; reflexivity.
Qed.

Lemma filter_none_len (f : A -> bool) (l : list A) :
  (forall x, f x = false) -> len (filter f l) = 0.
Proof.
  intros H. induction l as [| a l IH]; [reflexivity |].
  cbn [filter]. rewrite H. exact IH.
Qed.

End Filters.

Lemma filter_product_succ (f : list Z -> bool) (n : nat) :
  len (filter f (product [1; 2; 3] (S n))) =
    len (filter (fun x => f (1 :: x)) (product [1; 2; 3] n)) +
    len (filter (fun x => f (2 :: x)) (product [1; 2; 3] n)) +
    len (filter (fun x => f (3 :: x)) (product [1; 2; 3] n)).
Proof.
  cbn [product flat_map]. rewrite app_nil_r, !filter_app, !len_app.
  rewrite !filter_map_len. lia.
Qed.















(** The enumerator's counts in terms of [brute_count]. *)
Lemma brute_all_tilings_defined (cols : Z) :
  0 <= cols ->
  brute_all_tilings cols =
    Some (filter well_paired (product [1; 2; 3] (Z.to_nat cols))).
Proof.
  intros H. unfold brute_all_tilings.
  replace (cols <? 0) with false by (symmetry; apply Z.ltb_ge; lia).
  f_equal. apply filter_ext. intros x. apply is_valid_well_paired.
Qed.

Lemma brute_partial_num_tilings_count (twos cols : Z) :
  0 <= cols ->
  brute_partial_num_tilings twos cols =
    Some (brute_count twos (Z.to_nat cols)).
Proof.
  intros H. unfold brute_partial_num_tilings, brute_count.
  rewrite brute_all_tilings_defined by exact H.
  rewrite filter_twice. do 2 f_equal. apply filter_ext. intros x.
  rewrite is_valid_counted, is_valid_well_paired. unfold paired_with.
  destruct (well_paired x), (count 2 x =? twos); reflexivity.
Qed.


(** C1 at the empty strip. With no domino and no column the enumerator
    counts the empty tiling and the recurrence counter returns 0. *)
Theorem partial_differs_from_brute_at_0 :
  brute_partial_num_tilings 0 0 = Some 1 /\ partial_num_tilings 0 0 = 0.
Proof.
  split; vm_compute; reflexivity.
Qed.

(** ** The aggregator against the enumerator's total *)

Lemma fold_add_from (l : list Z) (a : Z) :
  fold_left Z.add l a = a + fold_left Z.add l 0.
Proof.
  revert a. induction l as [| x l IH]; intros a; cbn [fold_left].
  - lia.
  - rewrite (IH (a + x)), (IH (0 + x)). lia.
Qed.

Lemma sum_cons (x : Z) (l : list Z) : sum (x :: l) = x + sum l.
Proof. unfold sum. cbn [fold_left]. rewrite fold_add_from. lia. Qed.

Lemma sum_app (l1 l2 : list Z) : sum (l1 ++ l2) = sum l1 + sum l2.
Proof.
  induction l1 as [| x l1 IH]; [reflexivity |].
  cbn [app]. rewrite !sum_cons, IH. lia.
Qed.

Lemma sum_map_zero {A : Type} (l : list A) : sum (map (fun _ => 0) l) = 0.
Proof.
  induction l as [| a l IH]; [reflexivity |].
  cbn [map]. rewrite sum_cons, IH. reflexivity.
Qed.

Lemma sum_map_add {A : Type} (f g : A -> Z) (l : list A) :
  sum (map (fun a => f a + g a) l) = sum (map f l) + sum (map g l).
Proof.
  induction l as [| a l IH]; [reflexivity |].
  cbn [map]. rewrite !sum_cons, IH. lia.
Qed.

(** Exactly one [k] of [range(n)] is a given [v] with [0 <= v < n]. *)
Lemma sum_indicator_seq (v : Z) (n : nat) :
  0 <= v ->
  sum (map (fun k => if v =? k then 1 else 0) (map Z.of_nat (seq 0 n))) =
    if v <? Z.of_nat n then 1 else 0.
Proof.
  intros Hv. induction n as [| n IH].
  - cbn. replace (v <? 0) with false by (symmetry; apply Z.ltb_ge; lia).
    reflexivity.
  - rewrite seq_S, !map_app, sum_app, IH. cbn [map Nat.add].
    rewrite sum_cons. change (sum []) with 0.
    destruct (v <? Z.of_nat n) eqn:E1; destruct (v =? Z.of_nat n) eqn:E2;
      destruct (v <? Z.of_nat (S n)) eqn:E3; try reflexivity;
      try apply Z.ltb_lt in E1; try apply Z.ltb_ge in E1;
      try apply Z.eqb_eq in E2; try apply Z.eqb_neq in E2;
      try apply Z.ltb_lt in E3; try apply Z.ltb_ge in E3; lia.
Qed.

Lemma sum_indicator_range (v n : Z) :
  0 <= v < n ->
  sum (map (fun k => if v =? k then 1 else 0) (range n)) = 1.
Proof.
  intros H. unfold range. rewrite sum_indicator_seq by lia.
  replace (v <? Z.of_nat (Z.to_nat n)) with true
    by (symmetry; apply Z.ltb_lt; lia).
  reflexivity.
Qed.

(** Sorting the valid candidates by their number of heads loses none. *)
Lemma len_filter_by_heads (m : Z) (l : list (list Z)) :
  (forall x, In x l -> well_paired x = true -> count 2 x <= m) ->
  sum (map (fun k => len (filter (paired_with k) l)) (range (m + 1))) =
    len (filter well_paired l).
Proof.
  induction l as [| a l IH]; intros Hb.
  - cbn [filter]. apply sum_map_zero.
  - rewrite (map_ext _ (fun k => (if paired_with k a then 1 else 0) +
                                 len (filter (paired_with k) l))).
    2: { intros k. cbn [filter]. destruct (paired_with k a); [| reflexivity].
         unfold len. cbn [length]. lia. }
    rewrite sum_map_add, IH by (intros x Hx; apply Hb; right; exact Hx).
    cbn [filter]. unfold paired_with. destruct (well_paired a) eqn:Ha.
    + rewrite (map_ext _ (fun k => if count 2 a =? k then 1 else 0))
        by (intros k; rewrite andb_true_r; reflexivity).
      rewrite sum_indicator_range.
      * unfold len. cbn [length]. lia.
      * pose proof (well_paired_counts a Ha) as [_ [H0 _]].
        pose proof (Hb a (or_introl eq_refl) Ha). lia.
    + rewrite (map_ext _ (fun _ => 0))
        by (intros k; rewrite andb_false_r; reflexivity).
      rewrite sum_map_zero. reflexivity.
Qed.

Lemma product_length (pool : list Z) (n : nat) :
  forall x, In x (product pool n) -> length x = n.
Proof.
  induction n as [| n IH]; intros x Hx; cbn [product] in Hx.
  - destruct Hx as [<- | []]. reflexivity.
  - apply in_flat_map in Hx. destruct Hx as [y [_ Hx]].
    apply in_map_iff in Hx. destruct Hx as [x' [<- Hx']].
    cbn [length]. f_equal. apply IH, Hx'.
Qed.

Lemma sum_brute_count (cols : Z) :
  0 <= cols ->
  sum (map (fun k => brute_count k (Z.to_nat cols)) (range (cols / 2 + 1))) =
    len (filter well_paired (product [1; 2; 3] (Z.to_nat cols))).
Proof.
  intros H. unfold brute_count. apply len_filter_by_heads.
  intros x Hx Hw.
  pose proof (well_paired_counts x Hw) as [_ [_ Hc]].
  apply product_length in Hx. unfold len in Hc. rewrite Hx in Hc.
  apply Z.div_le_lower_bound; lia.
Qed.


(** C2 at the empty strip. With no column the enumerator's total is 1 and
    the aggregator's is 0. *)
Theorem total_differs_from_brute_at_0 :
  brute_num_tilings 0 = Some 1 /\ num_tilings 0 = 0.
Proof.
  split; vm_compute; reflexivity.
Qed.

(** ** The cap of the aggregator's sum *)




(** * Further properties of the tiling module *)

(** ** What the enumerator returns *)

Lemma in_product (pool : list Z) (n : nat) (x : list Z) :
  In x (product pool n) <-> length x = n /\ forall y, In y x -> In y pool.
Proof.
  revert x. induction n as [| n IH]; intros x; cbn [product].
  - split.
    + intros [<- | []]. split; [reflexivity | intros y []].
    + intros [Hl _]. destruct x; [left; reflexivity | discriminate].
  - rewrite in_flat_map. split.
    + intros [a [Ha Hx]]. apply in_map_iff in Hx.
      destruct Hx as [x' [<- Hx']]. apply IH in Hx'. destruct Hx' as [Hl Hp].
      split; [cbn; lia |]. intros y [<- | Hy]; auto.
    + intros [Hl Hp]. destruct x as [| a x']; [discriminate |].
      exists a. split; [apply Hp; left; reflexivity |].
      apply in_map. apply IH. split; [cbn in Hl; lia |].
      intros y Hy. apply Hp. right. exact Hy.
Qed.

Lemma NoDup_map_cons (a : Z) (l : list (list Z)) :
  NoDup l -> NoDup (map (cons a) l).
Proof.
  induction 1 as [| x l Hx Hl IH]; cbn [map]; constructor; [| exact IH].
  intros Hin. apply in_map_iff in Hin. destruct Hin as [y [Hy Hin]].
  injection Hy as ->. contradiction.
Qed.

Lemma NoDup_flat_map_cons (pool : list Z) (l : list (list Z)) :
  NoDup pool -> NoDup l -> NoDup (flat_map (fun x => map (cons x) l) pool).
Proof.
  intros Hp Hl.
  induction Hp as [| a pool' Ha Hp' IHp]; cbn [flat_map]; [constructor |].
  apply NoDup_app; [apply NoDup_map_cons, Hl | exact IHp |].
  intros x Hx Hx'. apply in_map_iff in Hx. destruct Hx as [y [<- _]].
  apply in_flat_map in Hx'. destruct Hx' as [b [Hb Hx']].
  apply in_map_iff in Hx'. destruct Hx' as [y' [Hy' _]].
  injection Hy' as -> _. contradiction.
Qed.

Lemma NoDup_product (pool : list Z) (n : nat) :
  NoDup pool -> NoDup (product pool n).
Proof.
  intros Hp. induction n as [| n IH]; cbn [product].
  - constructor; [intros [] | constructor].
  - apply NoDup_flat_map_cons; assumption.
Qed.

(** X1. The list returned by [brute_all_tilings(cols)] holds exactly the tuples
    of [cols] integers that [is_valid] accepts: nothing invalid is kept and no
    valid tiling is missed, whatever integers it is made of. *)
Theorem brute_all_tilings_exact (cols : Z) (tilings : list (list Z))
    (t : list Z) :
  brute_all_tilings cols = Some tilings ->
  (In t tilings <-> len t = cols /\ is_valid t None = true).
Proof.
  unfold brute_all_tilings. destruct (cols <? 0) eqn:E; [discriminate |].
  apply Z.ltb_ge in E. intros H. injection H as <-.
  rewrite filter_In, in_product. unfold len. split.
  - intros [[Hl _] Hv]. split; [lia | exact Hv].
  - intros [Hl Hv]. split; [| exact Hv]. split; [lia |].
    intros y Hy. apply is_valid_plain_iff, positions_ok_iff in Hv.
    destruct Hv as [Ha _]. cbn. destruct (Ha y Hy) as [-> | [-> | ->]]; auto.
Qed.

Lemma brute_all_tilings_exact_witness :
  In [2; 3; 1] [[1; 1; 1]; [1; 2; 3]; [2; 3; 1]] <->
  len [2; 3; 1] = 3 /\ is_valid [2; 3; 1] None = true.
Proof.
  apply (brute_all_tilings_exact 3 [[1; 1; 1]; [1; 2; 3]; [2; 3; 1]]
           [2; 3; 1]).
  reflexivity.
Defined.

(** X2. [brute_all_tilings] lists no tiling twice, so the lengths taken by
    [brute_num_tilings] and [brute_partial_num_tilings] count distinct
    tilings. *)
Theorem brute_all_tilings_NoDup (cols : Z) (tilings : list (list Z)) :
  brute_all_tilings cols = Some tilings -> NoDup tilings.
Proof.
  unfold brute_all_tilings. destruct (cols <? 0); [discriminate |].
  intros H. injection H as <-. apply NoDup_filter, NoDup_product.
  repeat constructor; cbn; intuition discriminate.
Qed.

Lemma brute_all_tilings_NoDup_witness :
  NoDup [[1; 1; 1]; [1; 2; 3]; [2; 3; 1]].
Proof.
  apply (brute_all_tilings_NoDup 3). reflexivity.
Defined.


(** ** The totals follow the Fibonacci rule *)

Lemma well_paired_total_step (n : nat) :
  len (filter well_paired (product [1; 2; 3] (S (S n)))) =
    len (filter well_paired (product [1; 2; 3] (S n))) +
    len (filter well_paired (product [1; 2; 3] n)).
Proof.
  rewrite filter_product_succ.
  change (fun x : list Z => well_paired (1 :: x)) with well_paired.
  rewrite (filter_none_len (fun x => well_paired (3 :: x)))
    by reflexivity.
  rewrite (filter_product_succ (fun x => well_paired (2 :: x)) n).
  cbv beta.
  rewrite (filter_none_len (fun x => well_paired (2 :: 1 :: x)))
    by reflexivity.
  rewrite (filter_none_len (fun x => well_paired (2 :: 2 :: x)))
    by reflexivity.
  change (fun x : list Z => well_paired (2 :: 3 :: x)) with well_paired.
  lia.
Qed.

Lemma brute_num_tilings_defined (cols : Z) :
  0 <= cols ->
  brute_num_tilings cols =
    Some (len (filter well_paired (product [1; 2; 3] (Z.to_nat cols)))).
Proof.
  intros H. unfold brute_num_tilings.
  rewrite brute_all_tilings_defined by exact H. reflexivity.
Qed.

Lemma brute_num_tilings_some (cols a : Z) :
  brute_num_tilings cols = Some a -> 0 <= cols.
Proof.
  unfold brute_num_tilings, brute_all_tilings.
  destruct (cols <? 0) eqn:E; [discriminate |].
  intros _. apply Z.ltb_ge, E.
Qed.


(** X4. The enumerator's totals obey the Fibonacci rule: on [cols + 2] columns
    there are as many valid tilings as on [cols + 1] and on [cols] columns
    together. *)
Theorem brute_num_tilings_fibonacci (cols a b : Z) :
  brute_num_tilings cols = Some a ->
  brute_num_tilings (cols + 1) = Some b ->
  brute_num_tilings (cols + 2) = Some (b + a).
Proof.
  intros Ha Hb.
  assert (Hc : 0 <= cols) by (apply (brute_num_tilings_some _ _ Ha)).
  rewrite brute_num_tilings_defined in Ha, Hb |- * by lia.
  replace (Z.to_nat (cols + 2)) with (S (S (Z.to_nat cols))) by lia.
  replace (Z.to_nat (cols + 1)) with (S (Z.to_nat cols)) in Hb by lia.
  rewrite well_paired_total_step. congruence.
Qed.

Lemma brute_num_tilings_fibonacci_witness :
  brute_num_tilings (3 + 2) = Some (5 + 3).
Proof.
  apply (brute_num_tilings_fibonacci 3 3 5); reflexivity.
Defined.



(** ** The closed form of the recurrence counter *)







(** ** The two counters, as [main] compares them *)



(** X10. The enumerator's counts per number of dominoes, summed over
    [range(cols // 2 + 1)] as [main] sums them, give its total. *)
Theorem brute_partials_add_up (cols total : Z) :
  brute_num_tilings cols = Some total ->
  sum (map (fun twos =>
              match brute_partial_num_tilings twos cols with
              | Some c => c
              | None => 0
              end)
           (range (cols / 2 + 1))) = total.
Proof.
  intros Ht.
  assert (Hc : 0 <= cols) by (apply (brute_num_tilings_some _ _ Ht)).
  rewrite brute_num_tilings_defined in Ht by exact Hc.
  injection Ht as <-. rewrite <- sum_brute_count by exact Hc.
  f_equal. apply map_ext. intros k.
  rewrite brute_partial_num_tilings_count by exact Hc. reflexivity.
Qed.

Lemma brute_partials_add_up_witness :
  sum (map (fun twos =>
              match brute_partial_num_tilings twos 5 with
              | Some c => c
              | None => 0
              end)
           (range (5 / 2 + 1))) = 8.
Proof.
  apply (brute_partials_add_up 5 8). reflexivity.
Defined.

(** ** The shape of a valid tiling *)

Lemma count_app (x : Z) (a b : list Z) :
  count x (a ++ b) = count x a + count x b.
Proof.
  induction a as [| y a IH]; [reflexivity |].
  cbn [app count]. rewrite IH. lia.
Qed.

Lemma well_paired_app (a b : list Z) :
  well_paired a = true -> well_paired (a ++ b) = well_paired b.
Proof.
  revert a. apply (well_paired_induction
                     (fun a => well_paired (a ++ b) = well_paired b)).
  - reflexivity.
  - intros r _ IH. exact IH.
  - intros r _ IH. exact IH.
Qed.

(** X12. A valid tiling followed by any tuple is valid exactly when the tuple
    is, and the two counts of dominoes add up: a tiling with [j] dominoes
    followed by one with [k] dominoes is a tiling with [j + k]. *)
Theorem is_valid_app (a b : list Z) :
  is_valid a None = true ->
  is_valid (a ++ b) None = is_valid b None /\
  forall k, is_valid (a ++ b) (Some (count 2 a + k)) = is_valid b (Some k).
Proof.
  intros Ha. rewrite is_valid_well_paired in Ha.
  assert (Hp : is_valid (a ++ b) None = is_valid b None).
  { rewrite !is_valid_well_paired. apply well_paired_app, Ha. }
  split; [exact Hp |]. intros k.
  rewrite !is_valid_counted, Hp, count_app. f_equal.
  destruct (count 2 b =? k) eqn:E.
  - apply Z.eqb_eq in E. apply Z.eqb_eq. lia.
  - apply Z.eqb_neq in E. apply Z.eqb_neq. lia.
Qed.

Lemma is_valid_app_witness :
  is_valid ([2; 3; 1] ++ [1; 2; 3]) None = is_valid [1; 2; 3] None /\
  forall k, is_valid ([2; 3; 1] ++ [1; 2; 3]) (Some (count 2 [2; 3; 1] + k)) =
            is_valid [1; 2; 3] (Some k).
Proof.
  apply (is_valid_app [2; 3; 1] [1; 2; 3]). reflexivity.
Defined.

(** X13. A valid tiling fills its columns: its length is the number of 1s plus
    twice the number of 2s. *)
Theorem is_valid_length (t : list Z) :
  is_valid t None = true -> len t = count 1 t + 2 * count 2 t.
Proof.
  rewrite is_valid_well_paired. revert t. apply well_paired_induction.
  - reflexivity.
  - intros r _ IH. unfold len in *. cbn [count length Z.eqb Pos.eqb]. lia.
  - intros r _ IH. unfold len in *. cbn [count length Z.eqb Pos.eqb]. lia.
Qed.

Lemma is_valid_length_witness :
  len [1; 2; 3; 2; 3] = count 1 [1; 2; 3; 2; 3] + 2 * count 2 [1; 2; 3; 2; 3].
Proof.
  apply (is_valid_length [1; 2; 3; 2; 3]). reflexivity.
Defined.

(** ** No subscript of [is_valid] is out of range *)

Lemma tile_ok_checked_in_range (tiling : list Z) (j : nat) (tile : Z) :
  (j < length tiling)%nat ->
  tile_ok_checked tiling (Z.of_nat j) tile =
    Some (tile_ok tiling (Z.of_nat j) tile).
Proof.
  intros Hj. unfold tile_ok_checked, tile_ok, item_is_checked, item_is, len.
  destruct (tile =? 1); [reflexivity |].
  destruct (tile =? 2).
  { destruct (Z.of_nat j <? Z.of_nat (length tiling) - 1) eqn:E;
      [| reflexivity].
    apply Z.ltb_lt in E. cbn [andb].
    replace (Z.of_nat j + 1) with (Z.of_nat (S j)) by lia.
    rewrite getitem_in_range by lia.
    destruct (nth_error tiling (S j)) eqn:En; [reflexivity |].
    apply nth_error_None in En. lia. }
  destruct (tile =? 3); [| reflexivity].
  destruct (0 <? Z.of_nat j) eqn:E; [| reflexivity].
  apply Z.ltb_lt in E. cbn [andb].
  destruct j as [| j']; [lia |].
  replace (Z.of_nat (S j') - 1) with (Z.of_nat j') by lia.
  rewrite getitem_in_range by lia.
  destruct (nth_error tiling j') eqn:En; [reflexivity |].
  apply nth_error_None in En. lia.
Qed.

Lemma scan_checked_suffix (rest : list Z) : forall pre : list Z,
  scan_checked (pre ++ rest) (len pre) rest =
    Some (scan (pre ++ rest) (len pre) rest).
Proof.
  induction rest as [| tile rest' IH]; intros pre; [reflexivity |].
  cbn [scan_checked scan]. unfold len at 1 3.
  rewrite tile_ok_checked_in_range
    by (rewrite length_app; cbn [length]; lia).
  fold (len pre).
  destruct (tile_ok (pre ++ tile :: rest') (len pre) tile); [| reflexivity].
  replace (len pre + 1) with (len (pre ++ [tile]))
    by (unfold len; rewrite length_app; cbn [length]; lia).
  replace (pre ++ tile :: rest') with ((pre ++ [tile]) ++ rest')
    by (rewrite <- app_assoc; reflexivity).
  apply IH.
Qed.

(** X14. [is_valid] raises no [IndexError] on any tuple: the guards [i <
    len(tiling) - 1] and [i > 0] keep [tiling[i+1]] and [tiling[i-1]] in range,
    so the checked loop always returns the answer of [is_valid]. *)
Theorem is_valid_never_raises (tiling : list Z) (twos : option Z) :
  is_valid_checked tiling twos = Some (is_valid tiling twos).
Proof.
  unfold is_valid_checked, is_valid.
  destruct (match twos with
            | Some k => negb (count 2 tiling =? k)
            | None => false
            end); [reflexivity |].
  apply (scan_checked_suffix tiling []).
Qed.


(** * Properties of the Luhn module *)

Import Luhn.

(** ** Digits and the generator [digits_rtl] *)

Lemma digit_val_range (d : digit) : 0 <= digit_val d <= 9.
Proof. destruct d; cbn; lia. Qed.


Lemma digit_of_val (d : digit) : digit_of (digit_val d) = d.
Proof. destruct d; reflexivity. Qed.

Lemma digits_rtl_loop_S (fuel : nat) (val : Z) :
  digits_rtl_loop (S fuel) val =
    if val =? 0 then Ok []
    else rest <- digits_rtl_loop fuel (val / 10) ;; Ok (val mod 10 :: rest).
Proof. reflexivity. Qed.

Lemma digits_rtl_loop_more (fuel : nat) : forall val ds fuel',
  digits_rtl_loop fuel val = Ok ds -> (fuel <= fuel')%nat ->
  digits_rtl_loop fuel' val = Ok ds.
Proof.
  induction fuel as [| fuel IH]; intros val ds fuel' H Hle; [discriminate |].
  destruct fuel' as [| fuel']; [lia |].
  rewrite digits_rtl_loop_S in *. destruct (val =? 0); [exact H |].
  destruct (digits_rtl_loop fuel (val / 10)) as [rest | e |] eqn:E;
    cbn [bind] in H; try discriminate.
  rewrite (IH _ rest fuel' E) by lia. exact H.
Qed.

Lemma digits_rtl_loop_terminates (fuel : nat) : forall val,
  0 <= val < 2 ^ Z.of_nat fuel ->
  exists ds, digits_rtl_loop (S fuel) val = Ok ds.
Proof.
  induction fuel as [| fuel IH]; intros val H; rewrite digits_rtl_loop_S.
  - replace val with 0 by (cbn in H; lia). exists []. reflexivity.
  - destruct (val =? 0) eqn:E0; [exists []; reflexivity |].
    apply Z.eqb_neq in E0.
    destruct (IH (val / 10)) as [rest Hrest].
    { rewrite Nat2Z.inj_succ, Z.pow_succ_r in H by lia.
      split; [apply Z.div_pos; lia |].
      apply Z.div_lt_upper_bound; lia. }
    rewrite Hrest. cbn [bind]. eexists. reflexivity.
Qed.

Lemma digits_rtl_loop_digits (fuel : nat) (val : Z) :
  0 <= val -> (fuel_for val <= fuel)%nat ->
  digits_rtl_loop fuel val = Ok (digits val).
Proof.
  intros H Hf.
  assert (Hex : exists ds, digits_rtl_loop (fuel_for val) val = Ok ds).
  { unfold fuel_for. replace (Z.to_nat (Z.log2 val) + 2)%nat
      with (S (S (Z.to_nat (Z.log2 val)))) by lia.
    apply digits_rtl_loop_terminates.
    rewrite Nat2Z.inj_succ, Z2Nat.id by apply Z.log2_nonneg.
    split; [exact H |].
    destruct (Z.eq_dec val 0) as [-> | Hne]; [reflexivity |].
    apply Z.log2_spec. lia. }
  destruct Hex as [ds Hds].
  apply (digits_rtl_loop_more _ _ _ fuel) in Hds as Hds'; [| exact Hf].
  unfold digits. rewrite Hds. exact Hds'.
Qed.

Lemma digits_0 : digits 0 = [].
Proof. reflexivity. Qed.

Lemma digits_step (val : Z) :
  0 < val -> digits val = val mod 10 :: digits (val / 10).
Proof.
  intros H.
  pose proof (digits_rtl_loop_digits (S (fuel_for val + fuel_for (val / 10)))
                val ltac:(lia) ltac:(lia)) as Hv.
  rewrite digits_rtl_loop_S in Hv.
  replace (val =? 0) with false in Hv by (symmetry; apply Z.eqb_neq; lia).
  rewrite (digits_rtl_loop_digits _ (val / 10)) in Hv
    by (try apply Z.div_pos; lia).
  cbn [bind] in Hv. injection Hv as Hv. symmetry. exact Hv.
Qed.

(** Induction on a number along its decimal digits. *)
Lemma decimal_induction (P : Z -> Prop) :
  P 0 -> (forall val, 0 < val -> P (val / 10) -> P val) ->
  forall val, 0 <= val -> P val.
Proof.
  intros H0 Hstep val Hval. generalize Hval.
  apply (Z_lt_induction (fun x => 0 <= x -> P x)); [| exact Hval].
  intros x IH Hx. destruct (Z.eq_dec x 0) as [-> | Hne]; [exact H0 |].
  apply Hstep; [lia |].
  assert (0 <= x / 10 < x)
    by (split; [apply Z.div_pos | apply Z.div_lt]; lia).
  apply IH; lia.
Qed.

Lemma digits_spec (val : Z) :
  0 <= val ->
  value_of (digits val) = val /\ Forall is_digit (digits val) /\
  last (digits val) 1 <> 0.
Proof.
  revert val. apply decimal_induction.
  - rewrite digits_0. cbn. repeat split; [constructor | lia].
  - intros val Hpos [IHv [IHd IHl]]. rewrite digits_step by exact Hpos.
    pose proof (Z.mod_pos_bound val 10 ltac:(lia)) as Hm.
    pose proof (Z.div_mod val 10 ltac:(lia)) as Hdm.
    repeat split.
    + cbn [value_of]. rewrite IHv. lia.
    + constructor; [unfold is_digit; lia | exact IHd].
    + destruct (digits (val / 10)) as [| d ds] eqn:E.
      * cbn [last]. cbn [value_of] in IHv. lia.
      * exact IHl.
Qed.

(** X15. Run on a number [val >= 0] with enough fuel, [digits_rtl] yields the
    decimal digits of [val], least significant first and without a leading
    zero: each is between 0 and 9 and together they denote [val] again. *)
Theorem digits_rtl_round_trip (fuel : nat) (val : Z) :
  0 <= val -> (fuel_for val <= fuel)%nat ->
  exists ds, digits_rtl fuel (Int val) = Ok ds /\
             value_of ds = val /\ Forall is_digit ds /\ last ds 1 <> 0.
Proof.
  intros H Hf. exists (digits val). split; [| apply digits_spec, H].
  unfold digits_rtl. cbn [int bind]. apply digits_rtl_loop_digits; assumption.
Qed.

Lemma digits_rtl_round_trip_witness :
  exists ds, digits_rtl 40 (Int 79927398713) = Ok ds /\
             value_of ds = 79927398713 /\ Forall is_digit ds /\
             last ds 1 <> 0.
Proof.
  apply (digits_rtl_round_trip 40 79927398713); [lia | vm_compute; lia].
Defined.


(** ** [luhnize] *)

Lemma luhnize_range (d index : Z) :
  is_digit d -> is_digit (luhnize d index).
Proof.
  unfold is_digit, luhnize. intros Hd.
  destruct (is_even index); [exact Hd |].
  destruct (d <? 5) eqn:E1;
    [apply Z.ltb_lt in E1 | apply Z.ltb_ge in E1]; lia.
Qed.

Lemma luhnize_injective (d e index : Z) :
  is_digit d -> is_digit e -> luhnize d index = luhnize e index -> d = e.
Proof.
  unfold is_digit, luhnize. intros Hd He.
  destruct (is_even index); [auto |].
  destruct (d <? 5) eqn:E1; destruct (e <? 5) eqn:E2;
    try apply Z.ltb_lt in E1; try apply Z.ltb_ge in E1;
    try apply Z.ltb_lt in E2; try apply Z.ltb_ge in E2; lia.
Qed.

(** X16. On a decimal digit [luhnize] returns a decimal digit, and at a fixed
    index it sends different digits to different digits. *)
Theorem luhnize_digit (d e index : Z) :
  is_digit d -> is_digit e ->
  is_digit (luhnize d index) /\
  (luhnize d index = luhnize e index -> d = e).
Proof.
  intros Hd He. split; [apply luhnize_range, Hd |].
  apply luhnize_injective; assumption.
Qed.

Lemma luhnize_digit_witness :
  is_digit (luhnize 7 3) /\ (luhnize 7 3 = luhnize 2 3 -> 7 = 2).
Proof.
  apply (luhnize_digit 7 2 3); unfold is_digit; lia.
Defined.

Lemma luhnize_0 (index : Z) : luhnize 0 index = 0.
Proof. unfold luhnize. destruct (is_even index); reflexivity. Qed.

(** ** The sum over the digits *)

Lemma luhn_total_from (ds : list Z) : luhn_total ds = luhn_from 0 ds.
Proof. reflexivity. Qed.

Lemma luhn_from_nil (start : Z) : luhn_from start [] = 0.
Proof. reflexivity. Qed.

Lemma luhn_from_cons (start d : Z) (ds : list Z) :
  luhn_from start (d :: ds) = luhnize d start + luhn_from (start + 1) ds.
Proof.
  unfold luhn_from. cbn [enumerate_from map fst snd]. apply sum_cons.
Qed.

Lemma luhn_from_app (a : list Z) : forall start b,
  luhn_from start (a ++ b) = luhn_from start a + luhn_from (start + len a) b.
Proof.
  induction a as [| d a IH]; intros start b.
  - cbn [app]. rewrite luhn_from_nil. unfold len. cbn [length Z.of_nat].
    rewrite Z.add_0_r. reflexivity.
  - cbn [app]. rewrite !luhn_from_cons, IH. unfold len. cbn [length].
    rewrite Nat2Z.inj_succ.
    replace (start + 1 + Z.of_nat (length a))
      with (start + Z.succ (Z.of_nat (length a))) by lia.
    lia.
Qed.

Lemma luhn_from_zeros (k : nat) : forall start,
  luhn_from start (repeat 0 k) = 0.
Proof.
  induction k as [| k IH]; intros start; [reflexivity |].
  cbn [repeat]. rewrite luhn_from_cons, luhnize_0, IH. reflexivity.
Qed.


(** ** Strings of digits *)

Lemma rtl_last (s : list char) (c : char) :
  rtl (s ++ [c]) = ord_minus_zero c :: rtl s.
Proof. unfold rtl. rewrite rev_unit. reflexivity. Qed.

Lemma all_digits_app (s1 s2 : list char) :
  all_digits (s1 ++ s2) <-> all_digits s1 /\ all_digits s2.
Proof. apply Forall_app. Qed.

Lemma rtl_is_digit (s : list char) :
  all_digits s -> Forall is_digit (rtl s).
Proof.
  intros H. unfold rtl. apply Forall_map, Forall_rev.
  apply (Forall_impl _ (P := fun c => c <> Minus)); [| exact H].
  intros [| d] Hc; [congruence |]. apply digit_val_range.
Qed.

Lemma parse_digits_last (s : list char) : forall acc c,
  parse_digits acc (s ++ [c]) =
    match parse_digits acc s, c with
    | Some v, Digit d => Some (10 * v + digit_val d)
    | _, _ => None
    end.
Proof.
  induction s as [| [| d] s IH]; intros acc c; cbn [app parse_digits].
  - destruct c; reflexivity.
  - reflexivity.
  - apply IH.
Qed.

Lemma parse_digits_rtl (s : list char) :
  all_digits s -> parse_digits 0 s = Some (value_of (rtl s)).
Proof.
  induction s as [| c s IH] using rev_ind; intros H; [reflexivity |].
  apply all_digits_app in H. destruct H as [Hs Hc].
  rewrite parse_digits_last, (IH Hs), rtl_last.
  inversion Hc as [| ? ? Hne _]; subst.
  destruct c as [| d]; [congruence |]. cbn [value_of ord_minus_zero].
  f_equal. lia.
Qed.

Lemma int_of_str_digits (s : list char) :
  all_digits s -> s <> [] -> int_of_str s = Ok (value_of (rtl s)).
Proof.
  intros H Hne. pose proof (parse_digits_rtl s H) as Hp.
  destruct s as [| c s']; [congruence |].
  inversion H as [| ? ? Hc _]; subst.
  destruct c as [| d]; [congruence |].
  unfold int_of_str. rewrite Hp. reflexivity.
Qed.

Lemma value_of_nonneg (l : list Z) : Forall is_digit l -> 0 <= value_of l.
Proof.
  induction 1 as [| d l Hd _ IH]; cbn [value_of]; unfold is_digit in *; lia.
Qed.

Lemma value_of_bound (l : list Z) :
  Forall is_digit l -> value_of l < 2 ^ (4 * Z.of_nat (length l)).
Proof.
  induction 1 as [| d l Hd _ IH]; [cbn; lia |].
  cbn [value_of length]. rewrite Nat2Z.inj_succ.
  replace (4 * Z.succ (Z.of_nat (length l)))
    with (4 + 4 * Z.of_nat (length l)) by lia.
  rewrite Z.pow_add_r by lia. change (2 ^ 4) with 16.
  unfold is_digit in Hd. lia.
Qed.

Lemma fuel_for_value (l : list Z) :
  Forall is_digit l -> (fuel_for (value_of l) <= 4 * length l + 2)%nat.
Proof.
  intros H. unfold fuel_for.
  pose proof (value_of_nonneg l H) as Hnn.
  pose proof (value_of_bound l H) as Hb.
  destruct (Z.eq_dec (value_of l) 0) as [-> | Hne]; [cbn; lia |].
  apply Z.log2_lt_pow2 in Hb; lia.
Qed.

Lemma fuel_for_rtl (s : list char) :
  all_digits s -> (fuel_for (value_of (rtl s)) <= fuel_for_str s)%nat.
Proof.
  intros H. pose proof (fuel_for_value (rtl s) (rtl_is_digit s H)) as Hf.
  unfold rtl in Hf at 2. rewrite length_map, length_rev in Hf. exact Hf.
Qed.


(** A list of digits is the digits of its number, then zeros. *)
Lemma digits_padding (l : list Z) :
  Forall is_digit l -> exists k, l = digits (value_of l) ++ repeat 0 k.
Proof.
  induction 1 as [| d l Hd Hl [k IH]]; [exists 0%nat; reflexivity |].
  pose proof (value_of_nonneg l Hl) as Hnn. unfold is_digit in Hd.
  cbn [value_of].
  destruct (Z.eq_dec (d + 10 * value_of l) 0) as [E | E].
  - exists (S k). rewrite E, digits_0. cbn [app repeat].
    assert (Hv : value_of l = 0) by lia.
    rewrite Hv, digits_0 in IH. cbn [app] in IH.
    f_equal; [lia | exact IH].
  - exists k. rewrite digits_step by lia.
    replace ((d + 10 * value_of l) mod 10) with d
      by (Z.to_euclidean_division_equations; lia).
    replace ((d + 10 * value_of l) / 10) with (value_of l)
      by (Z.to_euclidean_division_equations; lia).
    cbn [app]. f_equal. exact IH.
Qed.

Lemma luhn_from_digits (l : list Z) (start : Z) :
  Forall is_digit l ->
  luhn_from start (digits (value_of l)) = luhn_from start l.
Proof.
  intros H. destruct (digits_padding l H) as [k Hk].
  rewrite Hk at 2. rewrite luhn_from_app, luhn_from_zeros. lia.
Qed.

Lemma luhn_sum_value (fuel : nat) (s : list char) :
  all_digits s -> s <> [] -> (fuel_for (value_of (rtl s)) <= fuel)%nat ->
  luhn_sum fuel (Str s) = Ok (luhn_total (rtl s)).
Proof.
  intros H Hne Hf. unfold luhn_sum, digits_rtl. cbn [int].
  rewrite int_of_str_digits by assumption. cbn [bind].
  rewrite digits_rtl_loop_digits
    by (try apply value_of_nonneg, rtl_is_digit; assumption).
  cbn [bind]. rewrite !luhn_total_from, luhn_from_digits
    by (apply rtl_is_digit, H).
  reflexivity.
Qed.



(** ** The decimal notation of a number *)







(** ** The three sums *)








(** ** [luhn], [luhn2] and the check digit *)

Lemma luhn_value (fuel : nat) (s : list char) :
  all_digits s -> s <> [] -> (fuel_for (value_of (rtl s)) <= fuel)%nat ->
  luhn fuel (Str s) = Ok (luhn_total (rtl s) mod 10 =? 0).
Proof.
  intros H Hne Hf. unfold luhn. cbn [str]. cbv zeta.
  replace (len s =? 0) with false.
  - rewrite luhn_sum_value by assumption. reflexivity.
  - symmetry. apply Z.eqb_neq. unfold len.
    destruct s; [congruence | cbn [length]; lia].
Qed.




















(** ** What the checksum detects *)

Lemma rtl_middle (s1 s2 : list char) (c : char) :
  rtl (s1 ++ c :: s2) = rtl s2 ++ ord_minus_zero c :: rtl s1.
Proof.
  unfold rtl. rewrite rev_app_distr. cbn [rev].
  rewrite <- app_assoc, map_app. reflexivity.
Qed.

(** X25. One wrong digit is always detected: when [luhn] accepts a string of
    digits, it rejects every string that differs from it in exactly one
    digit. *)
Theorem luhn_detects_one_wrong_digit (fuel : nat) (s1 s2 : list char)
    (a b : digit) :
  all_digits s1 -> all_digits s2 -> a <> b ->
  (fuel_for_str (s1 ++ Digit a :: s2) <= fuel)%nat ->
  luhn fuel (Str (s1 ++ Digit a :: s2)) = Ok true ->
  luhn fuel (Str (s1 ++ Digit b :: s2)) = Ok false.
Proof.
  intros H1 H2 Hab Hf.
  assert (Hall : forall d, all_digits (s1 ++ Digit d :: s2)).
  { intros d. apply all_digits_app. split; [exact H1 |].
    constructor; [discriminate | exact H2]. }
  assert (Hlen : forall d, fuel_for_str (s1 ++ Digit d :: s2) =
                           fuel_for_str (s1 ++ Digit a :: s2))
    by (intros d; unfold fuel_for_str; rewrite !length_app; reflexivity).
  assert (Hl : forall d,
             luhn fuel (Str (s1 ++ Digit d :: s2)) =
               Ok ((luhn_from 0 (rtl s2) +
                    (luhnize (digit_val d) (len (rtl s2)) +
                     luhn_from (len (rtl s2) + 1) (rtl s1))) mod 10
                   =? 0)).
  { intros d. rewrite luhn_value; [| apply Hall | destruct s1; discriminate |].
    2: { pose proof (fuel_for_rtl _ (Hall d)). rewrite Hlen in *. lia. }
    rewrite rtl_middle, luhn_total_from, luhn_from_app, luhn_from_cons.
    rewrite Z.add_0_l. reflexivity. }
  rewrite !Hl. intros Ha. injection Ha as Ha. apply Z.eqb_eq in Ha.
  f_equal. apply Z.eqb_neq.
  pose proof (luhnize_range (digit_val a) (len (rtl s2))
                (digit_val_range a)) as Ra.
  pose proof (luhnize_range (digit_val b) (len (rtl s2))
                (digit_val_range b)) as Rb.
  assert (Hne : luhnize (digit_val a) (len (rtl s2)) <>
                luhnize (digit_val b) (len (rtl s2))).
  { intros E. apply luhnize_injective in E; try apply digit_val_range.
    apply Hab. rewrite <- (digit_of_val a), <- (digit_of_val b), E.
    reflexivity. }
  unfold is_digit in Ra, Rb.
  revert Ha Hne Ra Rb.
  generalize (luhnize (digit_val a) (len (rtl s2))).
  generalize (luhnize (digit_val b) (len (rtl s2))).
  generalize (luhn_from (len (rtl s2) + 1) (rtl s1)).
  generalize (luhn_from 0 (rtl s2)).
  intros x y lb la Ha Hne Ra Rb Hb.
  assert (Hd : (la - lb) mod 10 = 0).
  { replace (la - lb) with ((x + (la + y)) - (x + (lb + y))) by lia.
    rewrite Zminus_mod, Ha, Hb. reflexivity. }
  Z.to_euclidean_division_equations. lia.
Qed.

Lemma luhn_detects_one_wrong_digit_witness :
  luhn 30 (Str ([Digit D3] ++ Digit D8 :: [Digit D6])) = Ok false.
Proof.
  apply (luhn_detects_one_wrong_digit 30 [Digit D3] [Digit D6] D5 D8).
  - repeat constructor; discriminate.
  - repeat constructor; discriminate.
  - discriminate.
  - vm_compute. lia.
  - reflexivity.
Defined.

(** ** The empty string *)

(** X27. On the empty string [luhn] and [luhn2] answer true without looking
    further, [luhn_sum] raises [ValueError] at [int('')], [luhn_sum2] and
    [luhn_sum3] return 0, and the check digit is 0. *)
Theorem luhn_empty_string (fuel : nat) :
  luhn fuel (Str []) = Ok true /\ luhn2 fuel (Str []) = Ok true /\
  luhn_sum fuel (Str []) = Raise ValueError /\
  luhn_sum2 (Str []) = Ok 0 /\ luhn_sum3 (Str []) = 0 /\
  luhn_checkdigit (S fuel) (Str []) = Ok 0.
Proof.
  repeat split; reflexivity.
Qed.

(** ** Two neighbouring digits exchanged *)

Lemma rtl_two (s1 s2 : list char) (a b : digit) :
  luhn_total (rtl (s1 ++ Digit a :: Digit b :: s2)) =
    luhn_from 0 (rtl s2) +
    (luhnize (digit_val b) (len (rtl s2)) +
     (luhnize (digit_val a) (len (rtl s2) + 1) +
      luhn_from (len (rtl s2) + 1 + 1) (rtl s1))).
Proof.
  rewrite rtl_middle.
  change (Digit b :: s2) with ([] ++ Digit b :: s2).
  rewrite (rtl_middle [] s2 (Digit b)).
  change (rtl []) with (@nil Z). rewrite <- app_assoc. cbn [app].
  rewrite luhn_total_from, luhn_from_app, !luhn_from_cons, Z.add_0_l.
  reflexivity.
Qed.

Lemma luhnize_neighbours (d e i : Z) :
  is_digit d -> is_digit e ->
  (luhnize d i + luhnize e (i + 1) - (luhnize e i + luhnize d (i + 1)))
    mod 10 = 0 ->
  d = e \/ (d = 0 /\ e = 9) \/ (d = 9 /\ e = 0).
Proof.
  unfold is_digit, luhnize, is_even. intros Hd He.
  assert (Hp : (i mod 2 = 0 /\ (i + 1) mod 2 = 1) \/
               (i mod 2 = 1 /\ (i + 1) mod 2 = 0))
    by (Z.to_euclidean_division_equations; lia).
  destruct Hp as [[-> ->] | [-> ->]]; cbn [Z.eqb Pos.eqb];
    destruct (d <? 5) eqn:E1; destruct (e <? 5) eqn:E2;
    try apply Z.ltb_lt in E1; try apply Z.ltb_ge in E1;
    try apply Z.ltb_lt in E2; try apply Z.ltb_ge in E2;
    intros H; Z.to_euclidean_division_equations; lia.
Qed.

Lemma luhnize_9 (index : Z) : luhnize 9 index = 9.
Proof. unfold luhnize. destruct (is_even index); reflexivity. Qed.

(** X26. Two neighbouring digits exchanged are detected, except 0 and 9: when
    [luhn] accepts a string of digits it rejects the string with two different
    neighbours exchanged, unless the two are 0 and 9, and then it cannot tell
    the two strings apart. *)
Theorem luhn_detects_exchanged_neighbours (fuel : nat) (s1 s2 : list char)
    (a b : digit) :
  all_digits s1 -> all_digits s2 ->
  (fuel_for_str (s1 ++ Digit a :: Digit b :: s2) <= fuel)%nat ->
  (a <> b -> (a, b) <> (D0, D9) -> (a, b) <> (D9, D0) ->
   luhn fuel (Str (s1 ++ Digit a :: Digit b :: s2)) = Ok true ->
   luhn fuel (Str (s1 ++ Digit b :: Digit a :: s2)) = Ok false) /\
  luhn fuel (Str (s1 ++ Digit D0 :: Digit D9 :: s2)) =
    luhn fuel (Str (s1 ++ Digit D9 :: Digit D0 :: s2)).
Proof.
  intros H1 H2 Hf.
  assert (Hall : forall d e, all_digits (s1 ++ Digit d :: Digit e :: s2)).
  { intros d e. apply all_digits_app. split; [exact H1 |].
    repeat (constructor; [discriminate |]). exact H2. }
  assert (Hlen : forall d e,
             fuel_for_str (s1 ++ Digit d :: Digit e :: s2) =
               fuel_for_str (s1 ++ Digit a :: Digit b :: s2))
    by (intros d e; unfold fuel_for_str; rewrite !length_app; reflexivity).
  assert (Hl : forall d e,
             luhn fuel (Str (s1 ++ Digit d :: Digit e :: s2)) =
               Ok (luhn_total (rtl (s1 ++ Digit d :: Digit e :: s2)) mod 10
                   =? 0)).
  { intros d e. apply luhn_value; [apply Hall | destruct s1; discriminate |].
    pose proof (fuel_for_rtl _ (Hall d e)). rewrite Hlen in *. lia. }
  split.
  - intros Hab H09 H90. rewrite !Hl, !rtl_two.
    intros Ha. injection Ha as Ha. apply Z.eqb_eq in Ha.
    f_equal. apply Z.eqb_neq. intros Hb.
    assert (Hm : (luhnize (digit_val b) (len (rtl s2)) +
                  luhnize (digit_val a) (len (rtl s2) + 1) -
                  (luhnize (digit_val a) (len (rtl s2)) +
                   luhnize (digit_val b) (len (rtl s2) + 1))) mod 10 = 0).
    { revert Ha Hb.
      generalize (luhnize (digit_val a) (len (rtl s2))).
      generalize (luhnize (digit_val b) (len (rtl s2))).
      generalize (luhnize (digit_val a) (len (rtl s2) + 1)).
      generalize (luhnize (digit_val b) (len (rtl s2) + 1)).
      generalize (luhn_from (len (rtl s2) + 1 + 1) (rtl s1)).
      generalize (luhn_from 0 (rtl s2)).
      intros x y b1 a1 b0 a0 Ha Hb.
      replace (b0 + a1 - (a0 + b1))
        with ((x + (b0 + (a1 + y))) - (x + (a0 + (b1 + y)))) by lia.
      rewrite Zminus_mod, Ha, Hb. reflexivity. }
    destruct (luhnize_neighbours (digit_val b) (digit_val a)
                (len (rtl s2)) (digit_val_range b) (digit_val_range a) Hm)
      as [E | [[Eb Ea] | [Eb Ea]]].
    + apply Hab. rewrite <- (digit_of_val a), <- (digit_of_val b), E.
      reflexivity.
    + apply H90. rewrite <- (digit_of_val a), <- (digit_of_val b), Ea, Eb.
      reflexivity.
    + apply H09. rewrite <- (digit_of_val a), <- (digit_of_val b), Ea, Eb.
      reflexivity.
  - rewrite !Hl, !rtl_two. change (digit_val D0) with 0.
    change (digit_val D9) with 9. rewrite !luhnize_0, !luhnize_9.
    do 2 f_equal; lia.
Qed.

Lemma luhn_detects_exchanged_neighbours_witness :
  luhn 30 (Str ([] ++ Digit D5 :: Digit D3 :: [Digit D6])) = Ok false /\
  luhn 30 (Str ([] ++ Digit D0 :: Digit D9 :: [Digit D6])) =
    luhn 30 (Str ([] ++ Digit D9 :: Digit D0 :: [Digit D6])).
Proof.
  destruct (luhn_detects_exchanged_neighbours 30 [] [Digit D6] D3 D5)
    as [Hdetect Hblind].
  - constructor.
  - repeat constructor; discriminate.
  - vm_compute. lia.
  - split; [| exact Hblind].
    apply Hdetect; [discriminate | discriminate | discriminate | reflexivity].
Defined.

(** ** The answers do not depend on the fuel *)

Lemma luhn_sum_more (fuel fuel' : nat) (num : value) (r : Z) :
  luhn_sum fuel num = Ok r -> (fuel <= fuel')%nat ->
  luhn_sum fuel' num = Ok r.
Proof.
  unfold luhn_sum, digits_rtl. intros H Hle.
  destruct (int num) as [val | e |]; cbn [bind] in *; try discriminate.
  destruct (digits_rtl_loop fuel val) as [ds | e |] eqn:E;
    cbn [bind] in H; try discriminate.
  rewrite (digits_rtl_loop_more _ _ _ fuel' E Hle). exact H.
Qed.

Lemma luhn_more (fuel fuel' : nat) (num : value) (b : bool) :
  luhn fuel num = Ok b -> (fuel <= fuel')%nat -> luhn fuel' num = Ok b.
Proof.
  unfold luhn. intros H Hle. cbv zeta in *.
  destruct (len (str num) =? 0); [exact H |].
  destruct (luhn_sum fuel (Str (str num))) as [r | e |] eqn:E;
    cbn [bind] in H; try discriminate.
  rewrite (luhn_sum_more _ fuel' _ _ E Hle). exact H.
Qed.

Lemma luhn_checkdigit_more (fuel fuel' : nat) (num : value) (c : Z) :
  luhn_checkdigit fuel num = Ok c -> (fuel <= fuel')%nat ->
  luhn_checkdigit fuel' num = Ok c.
Proof.
  unfold luhn_checkdigit. intros H Hle.
  destruct (luhn_sum fuel (Str (str num ++ [Digit D0]))) as [r | e |] eqn:E;
    cbn [bind] in H; try discriminate.
  rewrite (luhn_sum_more _ fuel' _ _ E Hle). exact H.
Qed.

Lemma luhn2_more (fuel fuel' : nat) (num : value) (b : bool) :
  luhn2 fuel num = Ok b -> (fuel <= fuel')%nat -> luhn2 fuel' num = Ok b.
Proof.
  unfold luhn2. intros H Hle. cbv zeta in *.
  destruct (len (str num) =? 0); [exact H |].
  destruct (luhn_checkdigit fuel (Str (removelast (str num))))
    as [c | e |] eqn:E; cbn [bind] in H; try discriminate.
  rewrite (luhn_checkdigit_more _ fuel' _ _ E Hle). exact H.
Qed.

Lemma assert_bool_more (expected : bool) (r r' : result bool) :
  (forall b, r = Ok b -> r' = Ok b) ->
  assert_bool expected r = true -> assert_bool expected r' = true.
Proof.
  intros H. destruct r as [b | e |]; try discriminate.
  rewrite (H b eq_refl). auto.
Qed.

Lemma assert_equal_more (expected : Z) (r r' : result Z) :
  (forall z, r = Ok z -> r' = Ok z) ->
  assert_equal r expected = true -> assert_equal r' expected = true.
Proof.
  intros H. destruct r as [z | e |]; try discriminate.
  rewrite (H z eq_refl). auto.
Qed.

Lemma forallb_impl {A : Type} (f g : A -> bool) (l : list A) :
  (forall x, In x l -> f x = true -> g x = true) ->
  forallb f l = true -> forallb g l = true.
Proof.
  intros H Hf. apply forallb_forall. intros x Hx.
  apply H; [exact Hx |]. apply (proj1 (forallb_forall f l) Hf), Hx.
Qed.

Lemma luhn_tests_more (fuel fuel' : nat) (expected : bool)
    (nums : list value) :
  (fuel <= fuel')%nat ->
  forallb (fun func : nat -> value -> result bool =>
             forallb (fun num => assert_bool expected (func fuel num)) nums)
          LUHN_FUNCS = true ->
  forallb (fun func : nat -> value -> result bool =>
             forallb (fun num => assert_bool expected (func fuel' num)) nums)
          LUHN_FUNCS = true.
Proof.
  intros Hle. apply forallb_impl. intros func Hfunc.
  apply forallb_impl. intros num _. apply assert_bool_more. intros b Hb.
  destruct Hfunc as [<- | [<- | []]].
  - apply (luhn_more fuel); assumption.
  - apply (luhn2_more fuel); assumption.
Qed.

(** X28. The unit tests of the module pass: every assertion of [LuhnTests]
    holds and no call raises, with [sys.maxsize] either [2^31 - 1] or [2^63 -
    1]. *)
Theorem unit_tests_pass (fuel : nat) (maxsize : Z) :
  (64 <= fuel)%nat -> maxsize = 2 ^ 31 - 1 \/ maxsize = 2 ^ 63 - 1 ->
  test_is_even = true /\ test_is_not_even maxsize = true /\
  test_invalid_luhn fuel = true /\ test_valid_luhn fuel = true /\
  test_luhnize = true /\ test_luhn_sum fuel = true /\
  test_luhn_checkdigit fuel = true.
Proof.
  intros Hf Hm.
  refine (conj _ (conj _ (conj _ (conj _ (conj _ (conj _ _)))))).
  - vm_compute. reflexivity.
  - destruct Hm as [-> | ->]; vm_compute; reflexivity.
  - apply (luhn_tests_more 64); [exact Hf | vm_compute; reflexivity].
  - apply (luhn_tests_more 64); [exact Hf | vm_compute; reflexivity].
  - vm_compute. reflexivity.
  - assert (H64 : test_luhn_sum 64 = true) by (vm_compute; reflexivity).
    revert H64. unfold test_luhn_sum. apply forallb_impl. intros func _.
    apply forallb_impl. intros c _. apply assert_equal_more. intros z Hz.
    apply (luhn_sum_more 64); assumption.
  - assert (H64 : test_luhn_checkdigit 64 = true)
      by (vm_compute; reflexivity).
    revert H64. unfold test_luhn_checkdigit. apply forallb_impl.
    intros num _. destruct (l <- last_char (str num) ;; int (Str [l]));
      try discriminate.
    apply assert_equal_more. intros z Hz.
    apply (luhn_checkdigit_more 64); assumption.
Qed.

Lemma unit_tests_pass_witness :
  test_is_even = true /\ test_is_not_even (2 ^ 63 - 1) = true /\
  test_invalid_luhn 80 = true /\ test_valid_luhn 80 = true /\
  test_luhnize = true /\ test_luhn_sum 80 = true /\
  test_luhn_checkdigit 80 = true.
Proof.
  apply (unit_tests_pass 80 (2 ^ 63 - 1)); [lia | right; reflexivity].
Defined.



